(** * CinosBeverageSystem: a shallow embedding of [Drink] and [Order]

    The two classes of [CinosBeverageSystem.py] are embedded as records
    with their methods as computations in a state monad whose state
    survives a raised exception, the way a Python object keeps the
    mutations made before a [raise].

    Typing follows the docstrings of the source: a base and a flavor are
    [str], [flavors] is a list of [str], an index is an [int]; [add_item]
    checks its argument dynamically and so takes an arbitrary object. *)

From Stdlib Require Import ZArith String Ascii List Lia DecimalString.
From Stdlib Require Import Floats.SpecFloat.
From stdpp Require Import base decidable option list gmap sets strings.

Local Open Scope Z_scope.

(** ** Exceptions and the method monad *)

(** The three exception classes the source raises, with their message. *)
Inductive exn : Type :=
  | ValueError (msg : string)
  | TypeError (msg : string)
  | IndexError (msg : string).

(** A method running on an object of type [S]: it ends normally with a
    value or raises, and in both cases leaves a state behind. *)
Definition M (S A : Type) : Type := S → (exn + A) * S.

Definition ret {S A} (a : A) : M S A := λ s, (inr a, s).
Definition raise {S A} (e : exn) : M S A := λ s, (inl e, s).
Definition bind {S A B} (m : M S A) (k : A → M S B) : M S B :=
  λ s, match m s with
       | (inr a, s') => k a s'
       | (inl e, s') => (inl e, s')
       end.
Definition get {S} : M S S := λ s, (inr s, s).
Definition put {S} (s : S) : M S unit := λ _, (inr tt, s).

#[export] Instance M_ret {S} : MRet (M S) := λ _ a, ret a.
#[export] Instance M_bind {S} : MBind (M S) := λ _ _ k m, bind m k.

(** [for x in l: body(x)] *)
Fixpoint for_each {S A} (l : list A) (body : A → M S unit) : M S unit :=
  match l with
  | [] => ret tt
  | x :: l' => body x ;; for_each l' body
  end.

(** The outcome and the state left behind. *)
Definition outcome {S A} (r : (exn + A) * S) : exn + A := r.1.
Definition state_after {S A} (r : (exn + A) * S) : S := r.2.

(** ** Python text primitives *)

(** [sep.join(l)] *)
Definition join (sep : string) (l : list string) : string := String.concat sep l.

(** [repr] of a [str] that holds no quote, backslash or control character,
    as all twelve constants of the class do. *)
Definition repr_str (s : string) : string := "'" +:+ s +:+ "'".

(** [str] of a list of such strings. *)
Definition str_list (l : list string) : string :=
  "[" +:+ join ", " (map repr_str l) +:+ "]".

(** [str] of an [int] *)
Definition str_int (n : Z) : string := NilZero.string_of_int (Z.to_int n).

(** ["\n"] *)
Definition newline : string := String (ascii_of_nat 10) EmptyString.

(** ** Python sets

    [list(s)] walks the hash table of [s]: every element once, in an order
    the language leaves open. The order is kept abstract. *)
Class PySet : Type := {
  set_list : gset string → list string;
  set_list_perm : ∀ s, set_list s ≡ₚ elements s
}.

(** One such order, used to run the model on examples. *)
Definition PySet_elements : PySet :=
  {| set_list := elements; set_list_perm := λ s, reflexivity (elements s) |}.

(** ** Python floats (IEEE 754 binary64, round to nearest even) *)

Definition prec : Z := 53.
Definition emax : Z := 1024.
Definition float : Type := spec_float.

(** [float(n)] for an [int] below [2^1024]; CPython raises [OverflowError]
    from there on, where this returns an infinity. No [len] gets there. *)
Definition float_of_int (n : Z) : float := binary_normalize prec emax n 0 false.

Definition float_mul (x y : float) : float := SFmul prec emax x y.

(** [a / b] rounded to the nearest integer, ties to even, for [0 < b]. *)
Definition round_half_even_div (a b : Z) : Z :=
  let q := (a / b)%Z in
  match (2 * (a mod b) ?= b)%Z with
  | Lt => q
  | Eq => if Z.even q then q else (q + 1)%Z
  | Gt => (q + 1)%Z
  end.

(** The magnitude [m * 2^e] in hundredths, correctly rounded. *)
Definition hundredths (m : positive) (e : Z) : Z :=
  match e with
  | Zneg p => round_half_even_div (Zpos m * 100) (2 ^ Zpos p)
  | _ => (Zpos m * 2 ^ e * 100)%Z
  end.

Definition digit (d : Z) : ascii := ascii_of_N (48 + Z.to_N d).

(** [f"{x:.2f}"] *)
Definition format_2f (x : float) : string :=
  match x with
  | S754_nan => "nan"
  | S754_infinity s => (if s then "-" else "") +:+ "inf"
  | S754_zero s => (if s then "-" else "") +:+ "0.00"
  | S754_finite s m e =>
      let h := hundredths m e in
      (if s then "-" else "") +:+ str_int (h / 100) +:+ "."
        +:+ String (digit (h / 10 mod 10)) (String (digit (h mod 10)) "")
  end.

(** Decimal numerals with exactly two digits after the point. *)
Definition is_digit (c : ascii) : bool :=
  ((48 <=? N_of_ascii c) && (N_of_ascii c <=? 57))%N.

Fixpoint all_digits (s : string) : bool :=
  match s with
  | EmptyString => true
  | String c s' => is_digit c && all_digits s'
  end.

Definition two_decimals (s : string) : Prop :=
  ∃ (ip : string) (d1 d2 : ascii),
    s = ip +:+ "." +:+ String d1 (String d2 "")
    ∧ ip ≠ "" ∧ all_digits ip = true
    ∧ is_digit d1 = true ∧ is_digit d2 = true.

(** The integer a float is equal to, when it is equal to one. *)
Definition int_of_float (x : float) : option Z :=
  match x with
  | S754_zero _ => Some 0
  | S754_finite s m e =>
      match e with
      | Zneg p =>
          if (Zpos m mod 2 ^ Zpos p =? 0)
          then Some (cond_Zopp s (Zpos m / 2 ^ Zpos p)) else None
      | _ => Some (cond_Zopp s (Zpos m * 2 ^ e))
      end
  | _ => None
  end.

(** ** class Drink *)

Record Drink : Type := mkDrink {
  _base : option string;      (* None until a base is added *)
  _flavors : gset string      (* set() of the flavors added *)
}.

Definition _valid_bases : list string :=
  ["water"; "sbrite"; "pokeacola"; "Mr. Salt"; "hill fog"; "leaf wine"].
Definition _valid_flavors : list string :=
  ["lemon"; "cherry"; "strawberry"; "mint"; "blueberry"; "lime"].

(** [Drink()] *)
Definition Drink_init : Drink := {| _base := None; _flavors := ∅ |}.

Definition get_base (self : Drink) : option string := _base self.

Definition get_flavors `{PySet} (self : Drink) : list string :=
  set_list (_flavors self).

Definition get_num_flavors (self : Drink) : nat := size (_flavors self).

Definition add_base (base : string) : M Drink unit :=
  self ← get;
  if bool_decide (_base self ≠ None) then
    raise (ValueError "A base has already been added.")
  else if bool_decide (base ∉ _valid_bases) then
    raise (ValueError ("Invalid base: " +:+ base +:+ ". Valid options: "
                         +:+ str_list _valid_bases))
  else
    put {| _base := Some base; _flavors := _flavors self |}.

Definition add_flavor (flavor : string) : M Drink unit :=
  self ← get;
  if bool_decide (flavor ∉ _valid_flavors) then
    raise (ValueError ("Invalid flavor: " +:+ flavor +:+ ". Valid options: "
                         +:+ str_list _valid_flavors))
  else if bool_decide (flavor ∈ _flavors self) then
    raise (ValueError ("Flavor '" +:+ flavor +:+ "' has already been added."))
  else
    put {| _base := _base self; _flavors := {[flavor]} ∪ _flavors self |}.

Definition set_flavors (flavors : list string) : M Drink unit :=
  (self ← get; put {| _base := _base self; _flavors := ∅ |}) ;;
  for_each flavors add_flavor.


(** ** class Order *)

(** What a caller may hand to [add_item]. *)
Inductive pyobj : Type :=
  | PyNone
  | PyInt (n : Z)
  | PyStr (s : string)
  | PyDrink (d : Drink).

Record Order : Type := mkOrder {
  _items : list Drink         (* the drinks, in insertion order *)
}.

(** [Order()] *)
Definition Order_init : Order := {| _items := [] |}.

Definition get_items (self : Order) : list Drink := _items self.

Definition get_num_items (self : Order) : Z := Z.of_nat (length (_items self)).

(** [sys.maxsize] of a 64-bit CPython: no list is longer. *)
Definition PY_SSIZE_T_MAX : Z := 2 ^ 63 - 1.

(** The literal [5.00]. *)
Definition price_per_drink : float := S754_finite false 5629499534213120 (-50).

Definition get_total (self : Order) : float :=
  float_mul (float_of_int (Z.of_nat (length (_items self)))) price_per_drink.

(** [str(x)] for what [get_base] returns. *)
Definition str_base (x : option string) : string :=
  match x with
  | None => "None"
  | Some s => s
  end.

(** [a or b] on strings *)
Definition str_or (a b : string) : string :=
  match a with
  | EmptyString => b
  | _ => a
  end.

Section Receipt.
Context `{PySet}.

(** The line appended for [drink] at position [idx]. *)
Definition receipt_line (idx : Z) (drink : Drink) : string :=
  str_int idx +:+ ". Base: " +:+ str_base (get_base drink)
    +:+ ", Flavors: " +:+ str_or (join ", " (get_flavors drink)) "None".

(** [receipt_lines] when the loop over [enumerate(self._items, 1)] ends. *)
Definition receipt_loop (items : list Drink) (receipt_lines : list string)
  : list string :=
  (fold_left
     (λ '(idx, receipt_lines) drink,
        ((idx + 1)%Z, receipt_lines ++ [receipt_line idx drink]))
     items (1%Z, receipt_lines)).2.

(** [receipt_lines] at the [return] of a non-empty order. *)
Definition receipt_lines (self : Order) : list string :=
  let receipt_lines := ["--- Order Receipt ---"] in
  let receipt_lines := receipt_loop (_items self) receipt_lines in
  let receipt_lines :=
    receipt_lines ++ ["Total Drinks: " +:+ str_int (get_num_items self)] in
  receipt_lines ++ ["Total Cost: $" +:+ format_2f (get_total self)].

Definition get_receipt (self : Order) : string :=
  if bool_decide (_items self = []) then "Order is empty. Add some drinks!"
  else join newline (receipt_lines self).
End Receipt.

Definition add_item (drink : pyobj) : M Order unit :=
  self ← get;
  match drink with
  | PyDrink d => put {| _items := _items self ++ [d] |}
  | _ => raise (TypeError "Invalid item. Only Drink objects are allowed.")
  end.

Definition remove_item (index : Z) : M Order unit :=
  self ← get;
  if bool_decide (index < 0 ∨ index >= Z.of_nat (length (_items self)))%Z then
    raise (IndexError "Invalid index. No drink removed.")
  else
    put {| _items := delete (Z.to_nat index) (_items self) |}.


(** ** Histories of a drink *)

(** A call of one of the three mutators of [Drink]. *)
Inductive call : Type :=
  | AddBase (base : string)
  | AddFlavor (flavor : string)
  | SetFlavors (flavors : list string).

Definition run_call (c : call) : M Drink unit :=
  match c with
  | AddBase base => add_base base
  | AddFlavor flavor => add_flavor flavor
  | SetFlavors flavors => set_flavors flavors
  end.

(** The drink left by a sequence of calls, failed calls included. *)
Definition run_calls (cs : list call) (d : Drink) : Drink :=
  fold_left (λ d c, state_after (run_call c d)) cs d.

(** A drink is reachable when some history builds it from [Drink()]. *)
Definition reachable (d : Drink) : Prop :=
  ∃ cs, d = run_calls cs Drink_init.

(** ** The error taxonomy of the specification

    Each kind is the exception the source raises at that point. *)

Definition AlreadySet : exn :=
  ValueError "A base has already been added.".
Definition InvalidValue_base (v : string) : exn :=
  ValueError ("Invalid base: " +:+ v +:+ ". Valid options: "
                +:+ str_list _valid_bases).
Definition InvalidValue_flavor (v : string) : exn :=
  ValueError ("Invalid flavor: " +:+ v +:+ ". Valid options: "
                +:+ str_list _valid_flavors).
Definition Duplicate (v : string) : exn :=
  ValueError ("Flavor '" +:+ v +:+ "' has already been added.").
Definition TypeMismatch : exn :=
  TypeError "Invalid item. Only Drink objects are allowed.".
Definition OutOfRange : exn :=
  IndexError "Invalid index. No drink removed.".

(** The invariant of a drink. *)
Definition Drink_inv `{PySet} (d : Drink) : Prop :=
  (_base d = None ∨ ∃ b, _base d = Some b ∧ b ∈ _valid_bases)
  ∧ (∀ f, f ∈ _flavors d → f ∈ _valid_flavors)
  ∧ NoDup (get_flavors d)
  ∧ (∀ f, f ∈ get_flavors d ↔ f ∈ _flavors d).

(** ** Histories of an order *)

(** A call of one of the two mutators of [Order]. *)
Inductive order_call : Type :=
  | AddItem (drink : pyobj)
  | RemoveItem (index : Z).

Definition run_order_call (c : order_call) : M Order unit :=
  match c with
  | AddItem drink => add_item drink
  | RemoveItem index => remove_item index
  end.

(** The order left by a sequence of calls, failed calls included. *)
Definition run_order_calls (cs : list order_call) (o : Order) : Order :=
  fold_left (λ o c, state_after (run_order_call c o)) cs o.

(** The drinks handed to [add_item] in a sequence of calls, in order. *)
Definition drinks_added (cs : list order_call) : list Drink :=
  omap (λ c, match c with AddItem (PyDrink d) => Some d | _ => None end) cs.

(** Whether a text holds no line break, and how many it holds. *)
Fixpoint no_newline (s : string) : bool :=
  match s with
  | EmptyString => true
  | String c s' => negb (Ascii.eqb c (ascii_of_nat 10)) && no_newline s'
  end.

Fixpoint count_newlines (s : string) : nat :=
  match s with
  | EmptyString => 0%nat
  | String c s' =>
      ((if Ascii.eqb c (ascii_of_nat 10) then 1 else 0) + count_newlines s')%nat
  end.

(** * Properties *)

(** ** The monad *)

Ltac run :=
  unfold mbind, M_bind, mret, M_ret, bind, get, put, raise, ret,
    outcome, state_after in *; simpl in *.

(** The kinds raised as [ValueError] are told apart by their message. *)
Lemma taxonomy_distinct (v w : string) :
  AlreadySet ≠ InvalidValue_base v
  ∧ InvalidValue_flavor v ≠ Duplicate w
  ∧ TypeMismatch ≠ OutOfRange.
Proof. repeat split; discriminate. Qed.

Lemma drink_eta (d : Drink) : {| _base := _base d; _flavors := _flavors d |} = d.
Proof. by destruct d. Qed.

(** ** add_base *)

Lemma add_base_already (v : string) (d : Drink) :
  _base d ≠ None → add_base v d = (inl AlreadySet, d).
Proof.
  intros Hb. unfold add_base. run.
  by rewrite bool_decide_eq_true_2.
Qed.

Lemma add_base_invalid (v : string) (d : Drink) :
  _base d = None → v ∉ _valid_bases →
  add_base v d = (inl (InvalidValue_base v), d).
Proof.
  intros Hb Hv. unfold add_base. run.
  rewrite bool_decide_eq_false_2 by (by intros []).
  by rewrite bool_decide_eq_true_2.
Qed.

Lemma add_base_ok (v : string) (d : Drink) :
  _base d = None → v ∈ _valid_bases →
  add_base v d = (inr tt, {| _base := Some v; _flavors := _flavors d |}).
Proof.
  intros Hb Hv. unfold add_base. run.
  rewrite bool_decide_eq_false_2 by (by intros []).
  by rewrite bool_decide_eq_false_2 by (by intros []).
Qed.

(** No mutator writes a base over an existing one. *)
Lemma add_base_keeps_base (v b : string) (d : Drink) :
  _base d = Some b → _base (state_after (add_base v d)) = Some b.
Proof.
  intros Hb. rewrite add_base_already; [done|]. by rewrite Hb.
Qed.

(** ** add_flavor *)

Lemma add_flavor_invalid (v : string) (d : Drink) :
  v ∉ _valid_flavors → add_flavor v d = (inl (InvalidValue_flavor v), d).
Proof.
  intros Hv. unfold add_flavor. run.
  by rewrite bool_decide_eq_true_2.
Qed.

Lemma add_flavor_duplicate (v : string) (d : Drink) :
  v ∈ _valid_flavors → v ∈ _flavors d →
  add_flavor v d = (inl (Duplicate v), d).
Proof.
  intros Hv Hin. unfold add_flavor. run.
  rewrite bool_decide_eq_false_2 by (by intros []).
  by rewrite bool_decide_eq_true_2.
Qed.

Lemma add_flavor_ok (v : string) (d : Drink) :
  v ∈ _valid_flavors → v ∉ _flavors d →
  add_flavor v d
  = (inr tt, {| _base := _base d; _flavors := {[v]} ∪ _flavors d |}).
Proof.
  intros Hv Hin. unfold add_flavor. run.
  rewrite bool_decide_eq_false_2 by (by intros []).
  by rewrite bool_decide_eq_false_2.
Qed.

Lemma add_flavor_base (v : string) (d : Drink) :
  _base (state_after (add_flavor v d)) = _base d.
Proof.
  unfold add_flavor. run. by repeat case_bool_decide.
Qed.

Lemma add_base_flavors (v : string) (d : Drink) :
  _flavors (state_after (add_base v d)) = _flavors d.
Proof.
  unfold add_base. run. by repeat case_bool_decide.
Qed.

(** ** The loop of set_flavors *)

Lemma for_each_add_flavor_base (vs : list string) (d : Drink) :
  _base (state_after (for_each vs add_flavor d)) = _base d.
Proof.
  revert d. induction vs as [|v vs IH]; intros d; [done|].
  simpl. run.
  pose proof (add_flavor_base v d) as Hb. run.
  destruct (add_flavor v d) as [[e|[]] d']; simpl in *; [done|].
  by rewrite IH.
Qed.

Lemma set_flavors_unfold (vs : list string) (d : Drink) :
  set_flavors vs d
  = for_each vs add_flavor {| _base := _base d; _flavors := ∅ |}.
Proof. done. Qed.

Lemma for_each_app {S A} (l1 l2 : list A) (body : A → M S unit) (s : S) :
  for_each (l1 ++ l2) body s
  = match for_each l1 body s with
    | (inr _, s') => for_each l2 body s'
    | (inl e, s') => (inl e, s')
    end.
Proof.
  revert s. induction l1 as [|x l1 IH]; intros s; [done|].
  simpl. run. destruct (body x s) as [[e|[]] s']; [done|]. apply IH.
Qed.

(** A run of valid, pairwise distinct flavors, none of them already in the
    set, goes through and adds them all. *)
Lemma for_each_add_flavor_ok (pre : list string) (d : Drink) :
  Forall (.∈ _valid_flavors) pre → NoDup pre →
  (∀ v, v ∈ pre → v ∉ _flavors d) →
  for_each pre add_flavor d
  = (inr tt, {| _base := _base d; _flavors := list_to_set pre ∪ _flavors d |}).
Proof.
  revert d. induction pre as [|v pre IH]; intros d Hval Hnd Hfresh.
  - simpl. run. rewrite (left_id_L ∅ (∪)). by rewrite drink_eta.
  - apply Forall_cons in Hval as [Hv Hval]. apply NoDup_cons in Hnd as [Hnv Hnd].
    simpl. run. rewrite add_flavor_ok; [|done|apply Hfresh; left].
    rewrite IH; [|done|done|]; simpl.
    + f_equal. f_equal. apply set_eq. intros x. set_unfold. tauto.
    + intros w Hw [->%elem_of_singleton|Hin]%elem_of_union; [done|].
      by apply (Hfresh w); [right|].
Qed.

Lemma set_flavors_ok (pre : list string) (d : Drink) :
  Forall (.∈ _valid_flavors) pre → NoDup pre →
  set_flavors pre d
  = (inr tt, {| _base := _base d; _flavors := list_to_set pre |}).
Proof.
  intros Hval Hnd. rewrite set_flavors_unfold, for_each_add_flavor_ok; try done.
  simpl. by rewrite (right_id_L ∅ (∪)).
Qed.

(** The loop stops at the first element that [add_flavor] refuses, with the
    exception of [add_flavor] and the elements before it added. *)
Lemma set_flavors_stops (pre post : list string) (v : string) (d : Drink) :
  Forall (.∈ _valid_flavors) pre → NoDup pre →
  set_flavors (pre ++ v :: post) d
  = match add_flavor v {| _base := _base d; _flavors := list_to_set pre |} with
    | (inr _, d') => for_each post add_flavor d'
    | (inl e, d') => (inl e, d')
    end.
Proof.
  intros Hval Hnd. rewrite set_flavors_unfold, for_each_app.
  rewrite for_each_add_flavor_ok by done. simpl.
  rewrite (right_id_L ∅ (∪)). run.
  by destruct (add_flavor v _) as [[e|[]] d'].
Qed.

(** ** The invariant *)

Section Invariant.
Context `{PySet}.

Lemma get_flavors_NoDup (d : Drink) : NoDup (get_flavors d).
Proof.
  unfold get_flavors. rewrite set_list_perm. apply NoDup_elements.
Qed.

Lemma get_flavors_elem (d : Drink) (f : string) :
  f ∈ get_flavors d ↔ f ∈ _flavors d.
Proof.
  unfold get_flavors. rewrite set_list_perm. apply elem_of_elements.
Qed.

Lemma get_flavors_length (d : Drink) :
  length (get_flavors d) = get_num_flavors d.
Proof.
  unfold get_flavors, get_num_flavors. by rewrite set_list_perm.
Qed.

Lemma Drink_inv_intro (d : Drink) :
  (_base d = None ∨ ∃ b, _base d = Some b ∧ b ∈ _valid_bases) →
  (∀ f, f ∈ _flavors d → f ∈ _valid_flavors) →
  Drink_inv d.
Proof.
  intros Hb Hf. repeat split; try done.
  - apply get_flavors_NoDup.
  - apply get_flavors_elem.
  - apply get_flavors_elem.
Qed.

Lemma Drink_inv_init : Drink_inv Drink_init.
Proof.
  apply Drink_inv_intro; [by left|]. simpl. by intros f ?%elem_of_empty.
Qed.

Lemma add_base_inv (v : string) (d : Drink) :
  Drink_inv d → Drink_inv (state_after (add_base v d)).
Proof.
  intros (Hb & Hf & _). unfold add_base. run.
  repeat case_bool_decide; simpl; try (by apply Drink_inv_intro).
  apply Drink_inv_intro; simpl; [|done].
  right. exists v. split; [done|].
  by destruct (decide (v ∈ _valid_bases)).
Qed.

Lemma add_flavor_inv (v : string) (d : Drink) :
  Drink_inv d → Drink_inv (state_after (add_flavor v d)).
Proof.
  intros (Hb & Hf & _). unfold add_flavor. run.
  repeat case_bool_decide; simpl; try (by apply Drink_inv_intro).
  apply Drink_inv_intro; simpl; [done|].
  intros f [->%elem_of_singleton|Hin]%elem_of_union; [|by apply Hf].
  by destruct (decide (v ∈ _valid_flavors)).
Qed.

Lemma for_each_add_flavor_inv (vs : list string) (d : Drink) :
  Drink_inv d → Drink_inv (state_after (for_each vs add_flavor d)).
Proof.
  revert d. induction vs as [|v vs IH]; intros d Hd; [done|].
  simpl. run. pose proof (add_flavor_inv v d Hd) as Hd'. run.
  destruct (add_flavor v d) as [[e|[]] d']; simpl in *; [done|].
  by apply IH.
Qed.

Lemma set_flavors_inv (vs : list string) (d : Drink) :
  Drink_inv d → Drink_inv (state_after (set_flavors vs d)).
Proof.
  intros (Hb & _). rewrite set_flavors_unfold.
  apply for_each_add_flavor_inv, Drink_inv_intro; [done|].
  simpl. set_solver.
Qed.

Lemma run_call_inv (c : call) (d : Drink) :
  Drink_inv d → Drink_inv (state_after (run_call c d)).
Proof.
  destruct c; simpl;
    [apply add_base_inv|apply add_flavor_inv|apply set_flavors_inv].
Qed.

Lemma run_calls_inv (cs : list call) (d : Drink) :
  Drink_inv d → Drink_inv (run_calls cs d).
Proof.
  revert d. induction cs as [|c cs IH]; intros d Hd; [done|].
  simpl. by apply IH, run_call_inv.
Qed.
End Invariant.

(** ** Set-once base over a history *)

Lemma run_call_keeps_base (c : call) (b : string) (d : Drink) :
  _base d = Some b → _base (state_after (run_call c d)) = Some b.
Proof.
  intros Hb. destruct c; simpl.
  - by apply add_base_keeps_base.
  - by rewrite add_flavor_base.
  - by rewrite set_flavors_unfold, for_each_add_flavor_base.
Qed.

Lemma run_calls_keeps_base (cs : list call) (b : string) (d : Drink) :
  _base d = Some b → _base (run_calls cs d) = Some b.
Proof.
  revert d. induction cs as [|c cs IH]; intros d Hb; [done|].
  simpl. by apply IH, run_call_keeps_base.
Qed.

(** * The claims on [Drink] *)

(** C2. [add_base v] fails with AlreadySet whenever a base is assigned,
    whatever [v] is; on a drink without a base it fails with InvalidValue
    for [v] outside the six valid bases and leaves the base unset; otherwise
    it assigns [v]. After that success every later [add_base], after any
    further calls on the drink, fails with AlreadySet and the base stays
    [v]. *)
Theorem add_base_spec (d : Drink) (v : string) :
  (_base d ≠ None → add_base v d = (inl AlreadySet, d))
  ∧ (_base d = None → v ∉ _valid_bases →
       add_base v d = (inl (InvalidValue_base v), d))
  ∧ (_base d = None → v ∈ _valid_bases →
       add_base v d = (inr tt, {| _base := Some v; _flavors := _flavors d |})
       ∧ ∀ (cs : list call) (w : string),
           let d' := run_calls cs (state_after (add_base v d)) in
           add_base w d' = (inl AlreadySet, d') ∧ _base d' = Some v).
Proof.
  split; [apply add_base_already|]. split; [apply add_base_invalid|].
  intros Hb Hv. split; [by apply add_base_ok|].
  intros cs w d'.
  assert (_base d' = Some v) as Hd'.
  { apply run_calls_keeps_base. by rewrite add_base_ok. }
  split; [|done]. apply add_base_already. by rewrite Hd'.
Qed.

Lemma add_base_spec_witness :
  add_base "sbrite" {| _base := Some "water"; _flavors := ∅ |}
  = (inl AlreadySet, {| _base := Some "water"; _flavors := ∅ |})
  ∧ add_base "cola" Drink_init = (inl (InvalidValue_base "cola"), Drink_init)
  ∧ add_base "water" Drink_init
    = (inr tt, {| _base := Some "water"; _flavors := ∅ |})
  ∧ add_base "cola"
      (run_calls [AddFlavor "mint"] (state_after (add_base "water" Drink_init)))
    = (inl AlreadySet,
       run_calls [AddFlavor "mint"] (state_after (add_base "water" Drink_init))).
Proof.
  split; [|split; [|split]].
  - apply (add_base_spec {| _base := Some "water"; _flavors := ∅ |} "sbrite").
    discriminate.
  - apply (add_base_spec Drink_init "cola"); [reflexivity|].
    apply (bool_decide_unpack _). vm_compute. exact I.
  - apply (add_base_spec Drink_init "water"); [reflexivity|].
    apply (bool_decide_unpack _). vm_compute. exact I.
  - apply (add_base_spec Drink_init "water"); [reflexivity|].
    apply (bool_decide_unpack _). vm_compute. exact I.
Defined.

(** C3. [add_flavor v] fails with InvalidValue for [v] outside the six valid
    flavors, fails with Duplicate for a valid [v] already present, the
    count unchanged, and otherwise inserts [v], the count growing by
    exactly one; adding it again then fails with Duplicate. *)
Theorem add_flavor_spec (d : Drink) (v : string) :
  (v ∉ _valid_flavors → add_flavor v d = (inl (InvalidValue_flavor v), d))
  ∧ (v ∈ _valid_flavors → v ∈ _flavors d →
       add_flavor v d = (inl (Duplicate v), d)
       ∧ get_num_flavors (state_after (add_flavor v d)) = get_num_flavors d)
  ∧ (v ∈ _valid_flavors → v ∉ _flavors d →
       let d' := state_after (add_flavor v d) in
       outcome (add_flavor v d) = inr tt
       ∧ _flavors d' = {[v]} ∪ _flavors d
       ∧ get_num_flavors d' = S (get_num_flavors d)
       ∧ add_flavor v d' = (inl (Duplicate v), d')
       ∧ get_num_flavors (state_after (add_flavor v d')) = get_num_flavors d').
Proof.
  split; [apply add_flavor_invalid|]. split.
  - intros Hv Hin. by rewrite add_flavor_duplicate.
  - intros Hv Hin d'. subst d'. rewrite add_flavor_ok by done. run.
    assert (v ∈ ({[v]} ∪ _flavors d : gset string)) as Hin'
      by (apply elem_of_union_l; by apply elem_of_singleton).
    repeat split.
    + unfold get_num_flavors. simpl.
      rewrite size_union by (by apply disjoint_singleton_l).
      by rewrite size_singleton.
    + by rewrite add_flavor_duplicate.
    + by rewrite add_flavor_duplicate.
Qed.

Lemma add_flavor_spec_witness :
  add_flavor "grape" Drink_init = (inl (InvalidValue_flavor "grape"), Drink_init)
  ∧ add_flavor "mint" {| _base := None; _flavors := {["mint"]} |}
    = (inl (Duplicate "mint"), {| _base := None; _flavors := {["mint"]} |})
  ∧ get_num_flavors (state_after (add_flavor "mint" Drink_init))
    = S (get_num_flavors Drink_init).
Proof.
  split; [|split].
  - apply (add_flavor_spec Drink_init "grape").
    apply (bool_decide_unpack _). vm_compute. exact I.
  - apply (add_flavor_spec {| _base := None; _flavors := {["mint"]} |} "mint").
    + apply (bool_decide_unpack _). vm_compute. exact I.
    + apply (bool_decide_unpack _). vm_compute. exact I.
  - apply (add_flavor_spec Drink_init "mint").
    + apply (bool_decide_unpack _). vm_compute. exact I.
    + apply (bool_decide_unpack _). vm_compute. exact I.
Defined.

(** C1. [set_flavors] empties the set and then adds the elements in order
    as [add_flavor] would. A sequence of valid, pairwise distinct flavors
    replaces the set. At the first element that is invalid, or repeats an
    earlier one, the call fails with the exception of [add_flavor] and the
    set holds the elements before it: nothing is rolled back. So
    [set_flavors(["lemon","lemon"])] fails with Duplicate and leaves
    exactly {"lemon"}, and [set_flavors(["lemon","cherry"])] on a drink
    holding "mint" leaves exactly {"lemon","cherry"}. *)
Theorem set_flavors_spec (d : Drink) :
  (∀ pre : list string, Forall (.∈ _valid_flavors) pre → NoDup pre →
     set_flavors pre d
     = (inr tt, {| _base := _base d; _flavors := list_to_set pre |})
     ∧ (∀ v post, v ∉ _valid_flavors →
          set_flavors (pre ++ v :: post) d
          = (inl (InvalidValue_flavor v),
             {| _base := _base d; _flavors := list_to_set pre |}))
     ∧ (∀ v post, v ∈ _valid_flavors → v ∈ pre →
          set_flavors (pre ++ v :: post) d
          = (inl (Duplicate v),
             {| _base := _base d; _flavors := list_to_set pre |})))
  ∧ set_flavors ["lemon"; "lemon"] d
    = (inl (Duplicate "lemon"), {| _base := _base d; _flavors := {["lemon"]} |})
  ∧ ("mint" ∈ _flavors d →
       set_flavors ["lemon"; "cherry"] d
       = (inr tt, {| _base := _base d; _flavors := {["lemon"; "cherry"]} |})).
Proof.
  assert (∀ f, bool_decide (f ∈ _valid_flavors) = true → f ∈ _valid_flavors)
    as Hvalid by (intros f; apply bool_decide_eq_true_1).
  assert (∀ pre : list string, Forall (.∈ _valid_flavors) pre → NoDup pre →
     (∀ v post, v ∉ _valid_flavors →
          set_flavors (pre ++ v :: post) d
          = (inl (InvalidValue_flavor v),
             {| _base := _base d; _flavors := list_to_set pre |}))
     ∧ (∀ v post, v ∈ _valid_flavors → v ∈ pre →
          set_flavors (pre ++ v :: post) d
          = (inl (Duplicate v),
             {| _base := _base d; _flavors := list_to_set pre |}))) as Hstop.
  { intros pre Hval Hnd. split; intros v post Hv.
    - rewrite set_flavors_stops by done. by rewrite add_flavor_invalid.
    - intros Hin. rewrite set_flavors_stops by done.
      rewrite add_flavor_duplicate; [done|done|]. simpl.
      by apply elem_of_list_to_set. }
  split; [|split].
  - intros pre Hval Hnd. split; [by apply set_flavors_ok|by apply Hstop].
  - destruct (Hstop ["lemon"]) as [_ Hdup].
    { apply Forall_singleton. by apply Hvalid. }
    { apply NoDup_singleton. }
    change ["lemon"; "lemon"] with (["lemon"] ++ "lemon" :: ([] : list string)).
    rewrite (Hdup "lemon" []); [|by apply Hvalid|by left].
    do 2 f_equal; simpl; by rewrite ?(right_id_L ∅ (∪)).
  - intros _. rewrite set_flavors_ok.
    + do 2 f_equal; simpl; by rewrite ?(right_id_L ∅ (∪)).
    + apply Forall_cons; split; [by apply Hvalid|].
      apply Forall_singleton. by apply Hvalid.
    + apply NoDup_cons. split; [|apply NoDup_singleton].
      by intros [=]%list_elem_of_singleton.
Qed.

Lemma set_flavors_spec_witness :
  set_flavors ["lime"; "mint"] {| _base := None; _flavors := {["mint"]} |}
  = (inr tt, {| _base := None; _flavors := list_to_set ["lime"; "mint"] |})
  ∧ set_flavors (["lime"; "mint"] ++ "grape" :: ["lemon"]) Drink_init
    = (inl (InvalidValue_flavor "grape"),
       {| _base := None; _flavors := list_to_set ["lime"; "mint"] |})
  ∧ set_flavors (["lime"; "mint"] ++ "lime" :: ["lemon"]) Drink_init
    = (inl (Duplicate "lime"),
       {| _base := None; _flavors := list_to_set ["lime"; "mint"] |})
  ∧ set_flavors ["lemon"; "cherry"] {| _base := None; _flavors := {["mint"]} |}
    = (inr tt, {| _base := None; _flavors := {["lemon"; "cherry"]} |}).
Proof.
  assert (Forall (.∈ _valid_flavors) ["lime"; "mint"]) as Hval.
  { apply (bool_decide_unpack _). vm_compute. exact I. }
  assert (NoDup ["lime"; "mint"]) as Hnd.
  { apply (bool_decide_unpack _). vm_compute. exact I. }
  assert ("grape" ∉ _valid_flavors) as Hgrape.
  { apply (bool_decide_unpack _). vm_compute. exact I. }
  assert ("lime" ∈ _valid_flavors) as Hlime.
  { apply (bool_decide_unpack _). vm_compute. exact I. }
  assert ("lime" ∈ ["lime"; "mint"]) as Hin by left.
  assert ("mint" ∈ ({["mint"]} : gset string)) as Hmint.
  { by apply elem_of_singleton. }
  destruct (set_flavors_spec {| _base := None; _flavors := {["mint"]} |})
    as (Hgen & _ & Hex).
  destruct (Hgen _ Hval Hnd) as (Hok & _ & _).
  destruct (set_flavors_spec Drink_init) as (Hgen0 & _ & _).
  destruct (Hgen0 _ Hval Hnd) as (_ & Hinv & Hdup).
  split; [exact Hok|].
  split; [exact (Hinv "grape" ["lemon"] Hgrape)|].
  split; [exact (Hdup "lime" ["lemon"] Hlime Hin)|].
  exact (Hex Hmint).
Defined.

(** C9. Each mutator of [Drink] touches its own field only, whether it
    succeeds or fails: [add_base] leaves the flavor set alone, [add_flavor]
    and [set_flavors] leave the base alone. *)
Theorem mutators_frame (d : Drink) (v : string) (vs : list string) :
  _flavors (state_after (add_base v d)) = _flavors d
  ∧ _base (state_after (add_flavor v d)) = _base d
  ∧ _base (state_after (set_flavors vs d)) = _base d.
Proof.
  split; [apply add_base_flavors|]. split; [apply add_flavor_base|].
  by rewrite set_flavors_unfold, for_each_add_flavor_base.
Qed.

(** C6. Every reachable drink satisfies the invariant, which every call
    preserves whether it succeeds or fails: the base is unset or one of the
    six valid bases, every flavor in the set is one of the six valid
    flavors, and the flavors listed hold no duplicate. *)
Theorem Drink_invariant `{PySet} :
  Drink_inv Drink_init
  ∧ (∀ (c : call) (d : Drink),
       Drink_inv d → Drink_inv (state_after (run_call c d)))
  ∧ (∀ d : Drink, reachable d → Drink_inv d).
Proof.
  split; [apply Drink_inv_init|]. split; [apply run_call_inv|].
  intros d [cs ->]. apply run_calls_inv, Drink_inv_init.
Qed.

Lemma Drink_invariant_witness :
  @Drink_inv PySet_elements
    (run_calls [AddBase "water"; SetFlavors ["lemon"; "lemon"]; AddBase "x"]
       Drink_init).
Proof.
  destruct (@Drink_invariant PySet_elements) as (_ & _ & Hreach).
  apply Hreach.
  exists [AddBase "water"; SetFlavors ["lemon"; "lemon"]; AddBase "x"].
  reflexivity.
Defined.

(** * The claims on the items of an [Order] *)

Lemma remove_item_out_of_range (index : Z) (o : Order) :
  index < 0 ∨ index >= get_num_items o →
  remove_item index o = (inl OutOfRange, o).
Proof.
  intros Hi. unfold remove_item. run.
  by rewrite bool_decide_eq_true_2.
Qed.

Lemma remove_item_in_range (index : Z) (o : Order) :
  0 <= index < get_num_items o →
  remove_item index o
  = (inr tt, {| _items := delete (Z.to_nat index) (_items o) |}).
Proof.
  intros Hi. unfold remove_item. run.
  rewrite bool_decide_eq_false_2; [done|].
  unfold get_num_items in Hi. lia.
Qed.

(** C8. [add_item x] fails with TypeMismatch when [x] is no [Drink] and
    leaves the order as it was; a [Drink] is appended at the end, the items
    before it keeping their positions. *)
Theorem add_item_spec (o : Order) (x : pyobj) :
  ((∀ d, x ≠ PyDrink d) → add_item x o = (inl TypeMismatch, o))
  ∧ add_item (PyStr "not a drink") o = (inl TypeMismatch, o)
  ∧ (∀ d, x = PyDrink d →
       let o' := state_after (add_item x o) in
       add_item x o = (inr tt, {| _items := _items o ++ [d] |})
       ∧ get_num_items o' = get_num_items o + 1
       ∧ (∀ i : nat, (i < length (_items o))%nat →
            _items o' !! i = _items o !! i)
       ∧ _items o' !! length (_items o) = Some d).
Proof.
  split; [|split].
  - intros Hx. destruct x as [| | |d]; try by destruct o.
    by destruct (Hx d).
  - by destruct o.
  - intros d -> o'. subst o'. unfold add_item. run. repeat split.
    + unfold get_num_items. simpl. rewrite length_app. simpl. lia.
    + intros i Hi. by apply lookup_app_l.
    + by rewrite list_lookup_middle.
Qed.

Lemma add_item_spec_witness :
  add_item PyNone Order_init = (inl TypeMismatch, Order_init)
  ∧ add_item (PyDrink Drink_init) Order_init
    = (inr tt, {| _items := _items Order_init ++ [Drink_init] |}).
Proof.
  destruct (add_item_spec Order_init PyNone) as (Hbad & _ & _).
  destruct (add_item_spec Order_init (PyDrink Drink_init)) as (_ & _ & Hok).
  destruct (Hok Drink_init eq_refl) as (Happ & _).
  split; [|exact Happ].
  apply Hbad. intros d. discriminate.
Defined.

(** C7. [remove_item index] fails with OutOfRange for a negative index and
    for one at or past the item count, so [-1] and the count itself are
    refused on every order; any other index removes exactly the item at
    that position and the later items move up by one. *)
Theorem remove_item_spec (o : Order) (index : Z) :
  (index < 0 ∨ index >= get_num_items o →
     remove_item index o = (inl OutOfRange, o))
  ∧ remove_item (-1) o = (inl OutOfRange, o)
  ∧ remove_item (get_num_items o) o = (inl OutOfRange, o)
  ∧ (0 <= index < get_num_items o →
       let i := Z.to_nat index in
       let o' := state_after (remove_item index o) in
       outcome (remove_item index o) = inr tt
       ∧ _items o' = take i (_items o) ++ drop (S i) (_items o)
       ∧ get_num_items o' = get_num_items o - 1
       ∧ (∀ j : nat, (j < i)%nat → _items o' !! j = _items o !! j)
       ∧ (∀ j : nat, (i <= j)%nat → _items o' !! j = _items o !! S j)).
Proof.
  split; [apply remove_item_out_of_range|].
  split; [apply remove_item_out_of_range; lia|].
  split; [apply remove_item_out_of_range; lia|].
  intros Hi i o'. subst i o'. rewrite remove_item_in_range by done. run.
  repeat split.
  - apply delete_take_drop.
  - unfold get_num_items in *. simpl. rewrite length_delete.
    + lia.
    + apply lookup_lt_is_Some_2. lia.
  - intros j Hj. by apply list_lookup_delete_lt.
  - intros j Hj. by apply list_lookup_delete_ge.
Qed.

Lemma remove_item_spec_witness :
  remove_item 5 {| _items := [Drink_init; Drink_init] |}
  = (inl OutOfRange, {| _items := [Drink_init; Drink_init] |})
  ∧ outcome (remove_item 1 {| _items := [Drink_init; Drink_init] |}) = inr tt.
Proof.
  destruct (remove_item_spec {| _items := [Drink_init; Drink_init] |} 5)
    as (Hout & _).
  destruct (remove_item_spec {| _items := [Drink_init; Drink_init] |} 1)
    as (_ & _ & _ & Hin).
  split.
  - apply Hout. right. vm_compute. discriminate.
  - apply Hin. split; vm_compute; [discriminate|reflexivity].
Defined.

(** * Floating point: the total of an order *)

(** ** Bit lengths *)

Lemma digits2_pos_bounds (m : positive) :
  2 ^ (Zpos (digits2_pos m) - 1) <= Zpos m < 2 ^ Zpos (digits2_pos m).
Proof.
  induction m as [m IH|m IH|]; simpl digits2_pos.
  - rewrite Pos2Z.inj_succ.
    replace (Z.succ (Zpos (digits2_pos m)) - 1) with (Z.succ (Zpos (digits2_pos m) - 1)) by lia.
    rewrite !Z.pow_succ_r by lia. lia.
  - rewrite Pos2Z.inj_succ.
    replace (Z.succ (Zpos (digits2_pos m)) - 1) with (Z.succ (Zpos (digits2_pos m) - 1)) by lia.
    rewrite !Z.pow_succ_r by lia. lia.
  - simpl. lia.
Qed.

Lemma Zdigits2_log2 (z : Z) : 0 < z → Zdigits2 z = Z.log2 z + 1.
Proof.
  intros Hz. destruct z as [|m|m]; try lia.
  change (Zdigits2 (Zpos m)) with (Zpos (digits2_pos m)).
  pose proof (digits2_pos_bounds m) as Hm.
  rewrite (Z.log2_unique (Zpos m) (Zpos (digits2_pos m) - 1)); [lia|lia|].
  replace (Z.succ (Zpos (digits2_pos m) - 1)) with (Zpos (digits2_pos m)) by lia.
  exact Hm.
Qed.

Lemma Zdigits2_bounds (z : Z) :
  0 < z → 2 ^ (Zdigits2 z - 1) <= z < 2 ^ Zdigits2 z.
Proof.
  intros Hz. destruct z as [|m|m]; try lia. apply digits2_pos_bounds.
Qed.

Lemma Zdigits2_unique (z d : Z) :
  2 ^ (d - 1) <= z < 2 ^ d → 0 < d → Zdigits2 z = d.
Proof.
  intros Hz Hd. assert (0 < z) by (pose proof (Z.pow_pos_nonneg 2 (d - 1)); lia).
  rewrite Zdigits2_log2 by done.
  rewrite (Z.log2_unique z (d - 1)); [lia|lia|].
  replace (Z.succ (d - 1)) with d by lia. exact Hz.
Qed.

Lemma Zdigits2_pos (z : Z) : 0 < z → 0 < Zdigits2 z.
Proof. intros Hz. rewrite Zdigits2_log2 by done. pose proof (Z.log2_nonneg z). lia. Qed.

Lemma Zdigits2_mul_pow2 (z k : Z) :
  0 < z → 0 <= k → Zdigits2 (z * 2 ^ k) = Zdigits2 z + k.
Proof.
  intros Hz Hk. pose proof (Z.pow_pos_nonneg 2 k).
  rewrite !Zdigits2_log2 by nia. rewrite Z.log2_mul_pow2 by lia. lia.
Qed.

Lemma Zdigits2_le (a b : Z) : 0 < a → a <= b → Zdigits2 a <= Zdigits2 b.
Proof.
  intros Ha Hab. rewrite !Zdigits2_log2 by lia.
  pose proof (Z.log2_le_mono a b Hab). lia.
Qed.

(** iter_pos *)
Lemma iter_pos_nat {A} (f : A → A) (p : positive) (x : A) :
  SpecFloat.iter_pos f p x = Nat.iter (Pos.to_nat p) f x.
Proof.
  revert x. induction p as [p IH|p IH|]; intros x; cbn [SpecFloat.iter_pos].
  - rewrite !IH, Pos2Nat.inj_xI, <-Nat.iter_add, <-Nat.iter_succ_r.
    f_equal. lia.
  - rewrite !IH, Pos2Nat.inj_xO, <-Nat.iter_add. f_equal. lia.
  - done.
Qed.

(** shr_1 halves a non-negative mantissa. *)
Lemma shr_1_m (r : shr_record) :
  0 <= shr_m r → shr_m (shr_1 r) = shr_m r / 2.
Proof.
  destruct r as [m rb sb]. cbn [shr_m]. intros Hm.
  destruct m as [|[p|p|]|p]; cbn [shr_1 shr_m]; try lia; try done.
  - apply (Z.div_unique _ _ _ 1); lia.
  - apply (Z.div_unique _ _ _ 0); lia.
Qed.

Lemma iter_shr_1_m (n : nat) (r : shr_record) :
  0 <= shr_m r → shr_m (Nat.iter n shr_1 r) = shr_m r / 2 ^ Z.of_nat n.
Proof.
  intros Hm. induction n as [|n IH].
  - simpl. by rewrite Z.div_1_r.
  - rewrite Nat.iter_succ, shr_1_m.
    + rewrite IH, Nat2Z.inj_succ, Z.pow_succ_r by lia.
      rewrite Z.div_div by lia. f_equal. lia.
    + rewrite IH. apply Z.div_pos; lia.
Qed.

(** Shifting out zero bits loses nothing. *)
Lemma shr_1_exact (c : Z) :
  0 <= c →
  shr_1 (Build_shr_record (2 * c) false false) = Build_shr_record c false false.
Proof. intros Hc. by destruct c. Qed.

Lemma iter_shr_1_exact (n : nat) (c : Z) :
  0 <= c →
  Nat.iter n shr_1 (Build_shr_record (c * 2 ^ Z.of_nat n) false false)
  = Build_shr_record c false false.
Proof.
  revert c. induction n as [|n IH]; intros c Hc.
  - simpl. f_equal. lia.
  - rewrite Nat.iter_succ.
    rewrite Nat2Z.inj_succ, Z.pow_succ_r by lia.
    replace (c * (2 * 2 ^ Z.of_nat n)) with ((2 * c) * 2 ^ Z.of_nat n) by lia.
    rewrite IH by lia. by apply shr_1_exact.
Qed.

Lemma shr_exact (c e k : Z) :
  0 <= c → 0 <= k →
  shr (Build_shr_record (c * 2 ^ k) false false) e k
  = (Build_shr_record c false false, e + k).
Proof.
  intros Hc Hk. destruct k as [|p|p]; [| |lia].
  - cbn [shr]. do 2 f_equal; lia.
  - cbn [shr]. rewrite iter_pos_nat.
    rewrite <-(positive_nat_Z p) at 1. by rewrite iter_shr_1_exact.
Qed.

Lemma fexp_normal (x : Z) : -1021 <= x → fexp prec emax x = x - 53.
Proof. unfold fexp, SpecFloat.emin, prec, emax. lia. Qed.

(** A mantissa of 53 bits followed by zeros rounds to itself. *)
Lemma binary_round_aux_exact (s : bool) (c : positive) (k e : Z) :
  Zdigits2 (Zpos c) = 53 → 0 <= k → -1074 <= e + k <= 971 →
  binary_round_aux prec emax s (Zpos c * 2 ^ k) e loc_Exact
  = S754_finite s c (e + k).
Proof.
  intros Hc Hk He. unfold binary_round_aux, shr_fexp.
  rewrite Zdigits2_mul_pow2, Hc by lia.
  rewrite fexp_normal by lia.
  replace (53 + k + e - 53 - e) with k by lia.
  cbn [shr_record_of_loc]. rewrite shr_exact by lia.
  cbn [loc_of_shr_record shr_m round_nearest_even].
  rewrite Hc, fexp_normal by lia.
  replace (53 + (e + k) - 53 - (e + k)) with 0 by lia.
  cbn [shr shr_m]. unfold emax, prec.
  destruct (Z.leb_spec (e + k) (1024 - 53)); [done|lia].
Qed.

Lemma iter_xO_pow2 (m j : positive) :
  Zpos (Pos.iter xO m j) = Zpos m * 2 ^ Zpos j.
Proof.
  induction j as [|j IH] using Pos.peano_ind.
  - simpl. lia.
  - rewrite Pos.iter_succ, Pos2Z.inj_xO, IH, Pos2Z.inj_succ.
    rewrite Z.pow_succ_r by lia. lia.
Qed.

(** [shl_align] pads with zeros down to the smaller exponent. *)
Lemma shl_align_spec (m : positive) (ex ex' : Z) :
  Zpos (shl_align m ex ex').1 = Zpos m * 2 ^ (ex - Z.min ex ex')
  ∧ (shl_align m ex ex').2 = Z.min ex ex'.
Proof.
  unfold shl_align. destruct (ex' - ex) as [|j|j] eqn:Hj; cbn [fst snd].
  - replace (ex - Z.min ex ex') with 0 by lia. lia.
  - replace (ex - Z.min ex ex') with 0 by lia. lia.
  - rewrite iter_xO_pow2. replace (ex - Z.min ex ex') with (Zpos j) by lia. lia.
Qed.

(** [float(n)] is exact below [2^53]. *)
Lemma float_of_int_exact (n : Z) :
  0 < n < 2 ^ 53 →
  float_of_int n
  = S754_finite false (Z.to_pos (n * 2 ^ (53 - Zdigits2 n))) (Zdigits2 n - 53).
Proof.
  intros Hn. pose proof (Zdigits2_bounds n) as Hd.
  pose proof (Zdigits2_pos n) as Hd0.
  assert (Zdigits2 n <= 53) as Hd53.
  { destruct (Z.le_gt_cases (Zdigits2 n) 53) as [|Hgt]; [done|].
    assert (2 ^ 53 <= 2 ^ (Zdigits2 n - 1)) by (apply Z.pow_le_mono_r; lia).
    lia. }
  destruct n as [|m|m]; try lia.
  unfold float_of_int, binary_normalize, binary_round.
  change (Zpos (digits2_pos m)) with (Zdigits2 (Zpos m)).
  rewrite fexp_normal by lia.
  pose proof (shl_align_spec m 0 (Zdigits2 (Zpos m) + 0 - 53)) as [Hmz Hez].
  destruct (shl_align m 0 (Zdigits2 (Zpos m) + 0 - 53)) as [mz ez].
  cbn [fst snd] in *.
  replace (0 - Z.min 0 (Zdigits2 (Zpos m) + 0 - 53)) with (53 - Zdigits2 (Zpos m)) in Hmz by lia.
  replace (Z.min 0 (Zdigits2 (Zpos m) + 0 - 53)) with (Zdigits2 (Zpos m) - 53) in Hez by lia.
  subst ez. rewrite <-Hmz. rewrite Pos2Z.id.
  rewrite <-(Z.mul_1_r (Zpos mz)), <-(Z.pow_0_r 2).
  rewrite binary_round_aux_exact; [f_equal; lia| |lia|lia].
  rewrite Hmz. rewrite Zdigits2_mul_pow2 by lia. lia.
Qed.

Lemma Zdigits2_le_53 (n : Z) : 0 < n < 2 ^ 53 → 0 < Zdigits2 n <= 53.
Proof.
  intros Hn. pose proof (Zdigits2_bounds n) as Hd.
  pose proof (Zdigits2_pos n) as Hd0. split; [lia|].
  destruct (Z.le_gt_cases (Zdigits2 n) 53) as [|Hgt]; [done|].
  assert (2 ^ 53 <= 2 ^ (Zdigits2 n - 1)) by (apply Z.pow_le_mono_r; lia).
  lia.
Qed.

(** The product with [5.00] is exact while it stays below [2^53]. *)
Lemma float_mul_price_exact (n : Z) :
  0 <= n → 5 * n < 2 ^ 53 →
  float_mul (float_of_int n) price_per_drink = float_of_int (5 * n).
Proof.
  intros Hn0 Hn. destruct (Z.eq_dec n 0) as [->|Hnz]; [done|].
  pose proof (Zdigits2_le_53 n) as Hd. pose proof (Zdigits2_le_53 (5 * n)) as HD.
  pose proof (Zdigits2_le n (5 * n)) as Hmono.
  rewrite !float_of_int_exact by lia.
  set (d := Zdigits2 n) in *. set (D := Zdigits2 (5 * n)) in *.
  assert (0 < 2 ^ (53 - d)) by (apply Z.pow_pos_nonneg; lia).
  assert (0 < 2 ^ (53 - D)) by (apply Z.pow_pos_nonneg; lia).
  unfold float_mul, price_per_drink, SFmul. cbn [xorb].
  rewrite Pos2Z.inj_mul, Z2Pos.id by nia.
  replace (n * 2 ^ (53 - d) * 5629499534213120)
    with (Zpos (Z.to_pos (5 * n * 2 ^ (53 - D))) * 2 ^ (50 + D - d)).
  - rewrite binary_round_aux_exact; [f_equal; lia| |lia|lia].
    rewrite Z2Pos.id by nia. rewrite Zdigits2_mul_pow2 by lia. fold D. lia.
  - rewrite Z2Pos.id by nia.
    change 5629499534213120 with (5 * 2 ^ 50).
    replace (5 * n * 2 ^ (53 - D) * 2 ^ (50 + D - d))
      with (5 * n * (2 ^ (53 - D) * 2 ^ (50 + D - d))) by lia.
    rewrite <-Z.pow_add_r by lia.
    replace (n * 2 ^ (53 - d) * (5 * 2 ^ 50))
      with (5 * n * (2 ^ (53 - d) * 2 ^ 50)) by lia.
    rewrite <-Z.pow_add_r by lia. do 2 f_equal. lia.
Qed.

Lemma int_of_float_of_int (n : Z) :
  0 <= n < 2 ^ 53 → int_of_float (float_of_int n) = Some n.
Proof.
  intros Hn. destruct (Z.eq_dec n 0) as [->|Hnz]; [done|].
  pose proof (Zdigits2_le_53 n) as Hd.
  rewrite float_of_int_exact by lia. set (d := Zdigits2 n) in *.
  assert (0 < 2 ^ (53 - d)) by (apply Z.pow_pos_nonneg; lia).
  unfold int_of_float. destruct (d - 53) as [|p|p] eqn:Hp; try lia.
  - rewrite Z2Pos.id by nia. replace (53 - d) with 0 by lia.
    cbn [cond_Zopp]. f_equal. lia.
  - rewrite Z2Pos.id by nia. replace (53 - d) with (Zpos p) by lia.
    rewrite Z.mod_mul by lia. rewrite Z.eqb_refl. cbn [cond_Zopp].
    by rewrite Z.div_mul by lia.
Qed.

(** ** Rounding in general: the result stays finite *)

Lemma shr_m_of_loc (z : Z) (l : location) : shr_m (shr_record_of_loc z l) = z.
Proof. by destruct l as [|[]]. Qed.

Lemma round_nearest_even_bounds (m : Z) (l : location) :
  m <= round_nearest_even m l <= m + 1.
Proof. destruct l as [|[]]; cbn [round_nearest_even]; try lia. destruct (Z.even m); lia. Qed.

Lemma Zdigits2_le_pow (z k : Z) : 0 < z <= 2 ^ k → 0 <= k → Zdigits2 z <= k + 1.
Proof.
  intros Hz Hk. rewrite <-(Zdigits2_unique (2 ^ k) (k + 1)).
  - apply Zdigits2_le; lia.
  - replace (k + 1 - 1) with k by lia. split; [lia|].
    apply Z.pow_lt_mono_r; lia.
  - lia.
Qed.

Lemma Zdigits2_succ (z : Z) : 0 < z → Zdigits2 (z + 1) <= Zdigits2 z + 1.
Proof.
  intros Hz. pose proof (Zdigits2_bounds z Hz). pose proof (Zdigits2_pos z Hz).
  apply Zdigits2_le_pow; lia.
Qed.

Lemma shr_fexp_pos (z e : Z) (l : location) :
  0 < z → -1074 <= e →
  0 < shr_m (shr_fexp prec emax z e l).1 <= z
  ∧ (shr_fexp prec emax z e l).2 = Z.max e (Zdigits2 z + e - 53).
Proof.
  intros Hz He. pose proof (Zdigits2_bounds z Hz) as Hd.
  pose proof (Zdigits2_pos z Hz) as Hd0.
  unfold shr_fexp, fexp, SpecFloat.emin, prec, emax.
  destruct (Z.max (Zdigits2 z + e - 53) (3 - 1024 - 53) - e) as [|p|p] eqn:Hk;
    cbn [shr fst snd]; rewrite ?shr_m_of_loc; try lia.
  rewrite iter_pos_nat, iter_shr_1_m, shr_m_of_loc, positive_nat_Z
    by (rewrite shr_m_of_loc; lia).
  assert (Zdigits2 z - 1 = Zpos p + 52) as Hp by lia.
  rewrite Hp, Z.pow_add_r in Hd by lia.
  assert (0 < 2 ^ Zpos p) by (apply Z.pow_pos_nonneg; lia).
  split; [split|lia].
  - apply Z.div_str_pos. nia.
  - apply Z.div_le_upper_bound; nia.
Qed.

Lemma binary_round_aux_finite (s : bool) (z e : Z) (l : location) :
  0 < z → -1074 <= e → e + 2 * Z.max 0 (Zdigits2 z - 52) <= 971 →
  ∃ m' e', binary_round_aux prec emax s z e l = S754_finite s m' e'
           ∧ Zpos m' <= z + 1
           ∧ e <= e' <= e + 2 * Z.max 0 (Zdigits2 z - 52).
Proof.
  intros Hz He Hb. unfold binary_round_aux.
  pose proof (shr_fexp_pos z e l Hz He) as [Hm1 He1].
  destruct (shr_fexp prec emax z e l) as [r1 e1]. cbn [fst snd] in *.
  pose proof (round_nearest_even_bounds (shr_m r1) (loc_of_shr_record r1)) as Hm2.
  set (m2 := round_nearest_even (shr_m r1) (loc_of_shr_record r1)) in *.
  assert (0 < m2) as Hm2pos by lia.
  pose proof (shr_fexp_pos m2 e1 loc_Exact Hm2pos ltac:(lia)) as [Hm3 He2].
  destruct (shr_fexp prec emax m2 e1 loc_Exact) as [r2 e2]. cbn [fst snd] in *.
  assert (Zdigits2 m2 <= Zdigits2 z + 1) as Hd2.
  { transitivity (Zdigits2 (z + 1)); [apply Zdigits2_le; lia|by apply Zdigits2_succ]. }
  destruct (shr_m r2) as [|m'|m'] eqn:Hr2; try lia.
  exists m', e2. unfold emax, prec.
  destruct (Z.leb_spec e2 (1024 - 53)); [|lia].
  repeat split; lia.
Qed.

(** [float(n)] of a positive [n] below [2^63] is a positive finite float. *)
Lemma float_of_int_finite (n : Z) :
  0 < n < 2 ^ 63 →
  ∃ m e, float_of_int n = S754_finite false m e
         ∧ Zpos m <= 2 ^ 63 ∧ -52 <= e <= 24.
Proof.
  intros Hn. pose proof (Zdigits2_pos n ltac:(lia)) as Hd0.
  pose proof (Zdigits2_le_pow n 63 ltac:(lia) ltac:(lia)) as Hd.
  pose proof (Zdigits2_bounds n ltac:(lia)) as Hb.
  destruct n as [|m|m]; try lia.
  unfold float_of_int, binary_normalize, binary_round.
  change (Zpos (digits2_pos m)) with (Zdigits2 (Zpos m)).
  rewrite fexp_normal by lia.
  pose proof (shl_align_spec m 0 (Zdigits2 (Zpos m) + 0 - 53)) as [Hmz Hez].
  destruct (shl_align m 0 (Zdigits2 (Zpos m) + 0 - 53)) as [mz ez].
  cbn [fst snd] in *. set (d := Zdigits2 (Zpos m)) in *.
  assert (Zdigits2 (Zpos mz) = d + (0 - ez)) as Hdz.
  { rewrite Hmz, Zdigits2_mul_pow2 by lia. lia. }
  assert (Zpos mz < 2 ^ 63) as Hlt.
  { destruct (Z.le_gt_cases d 53).
    - pose proof (Zdigits2_bounds (Zpos mz) ltac:(lia)) as Hbz.
      rewrite Hdz in Hbz. replace (d + (0 - ez)) with 53 in Hbz by lia. lia.
    - rewrite Hmz. replace (0 - Z.min 0 (d + 0 - 53)) with 0 by lia. lia. }
  destruct (binary_round_aux_finite false (Zpos mz) ez loc_Exact)
    as (m' & e' & Hr & Hm' & He'); [lia|lia|lia|].
  exists m', e'. split; [done|]. lia.
Qed.

(** The total of a non-empty order of fewer than [2^63] items is a positive
    finite float. *)
Lemma float_mul_price_finite (n : Z) :
  0 < n < 2 ^ 63 →
  ∃ m e, float_mul (float_of_int n) price_per_drink = S754_finite false m e.
Proof.
  intros Hn. destruct (float_of_int_finite n Hn) as (m1 & e1 & -> & Hm1 & He1).
  unfold float_mul, price_per_drink, SFmul. cbn [xorb].
  assert (Zdigits2 (Zpos (m1 * 5629499534213120)) <= 117) as Hd.
  { apply (Zdigits2_le_pow _ 116); [|lia].
    rewrite Pos2Z.inj_mul. split; [lia|].
    change (2 ^ 116) with (2 ^ 63 * 2 ^ 53). 
    assert (5629499534213120 <= 2 ^ 53) by (by vm_compute). nia. }
  destruct (binary_round_aux_finite false (Zpos (m1 * 5629499534213120))
              (e1 + -50) loc_Exact) as (m' & e' & Hr & _); [lia|lia|lia|].
  by exists m', e'.
Qed.

(** ** Formatting with two decimals *)

Lemma all_digits_string_of_uint (u : Decimal.uint) :
  all_digits (NilEmpty.string_of_uint u) = true.
Proof. induction u; simpl; by rewrite ?IHu. Qed.

Lemma str_int_digits (z : Z) :
  0 <= z → all_digits (str_int z) = true ∧ str_int z ≠ "".
Proof.
  intros Hz. unfold str_int, Z.to_int. destruct z as [|p|p]; [done| |lia].
  unfold NilZero.string_of_int, NilZero.string_of_uint.
  pose proof (all_digits_string_of_uint (Pos.to_uint p)) as Hd.
  by destruct (Pos.to_uint p).
Qed.

Lemma is_digit_digit (d : Z) : 0 <= d < 10 → is_digit (digit d) = true.
Proof.
  intros Hd.
  assert (d = 0 ∨ d = 1 ∨ d = 2 ∨ d = 3 ∨ d = 4 ∨ d = 5 ∨ d = 6 ∨ d = 7
          ∨ d = 8 ∨ d = 9) as Hcases by lia.
  by repeat (destruct Hcases as [->|Hcases]; [done|]); subst.
Qed.

Lemma round_half_even_div_nonneg (a b : Z) :
  0 <= a → 0 < b → 0 <= round_half_even_div a b.
Proof.
  intros Ha Hb. unfold round_half_even_div.
  pose proof (Z.div_pos a b Ha Hb).
  destruct (2 * (a mod b) ?= b); [destruct (Z.even (a / b))| |]; lia.
Qed.

Lemma hundredths_nonneg (m : positive) (e : Z) : 0 <= hundredths m e.
Proof.
  unfold hundredths. destruct e as [|p|p].
  - lia.
  - pose proof (Z.pow_pos_nonneg 2 (Zpos p)). nia.
  - apply round_half_even_div_nonneg; [lia|]. by apply Z.pow_pos_nonneg.
Qed.

(** Every positive finite float is printed with two decimals. *)
Lemma format_2f_two_decimals (m : positive) (e : Z) :
  two_decimals (format_2f (S754_finite false m e)).
Proof.
  pose proof (hundredths_nonneg m e) as Hh. cbn [format_2f].
  set (h := hundredths m e) in *.
  exists (str_int (h / 100)), (digit (h / 10 mod 10)), (digit (h mod 10)).
  destruct (str_int_digits (h / 100)) as [Hd Hne]; [apply Z.div_pos; lia|].
  repeat split; try done.
  - apply is_digit_digit, Z.mod_pos_bound. lia.
  - apply is_digit_digit, Z.mod_pos_bound. lia.
Qed.

(** An integer below [2^53] is printed as itself followed by [.00]. *)
Lemma format_2f_float_of_int (n : Z) :
  0 <= n < 2 ^ 53 → format_2f (float_of_int n) = str_int n +:+ ".00".
Proof.
  intros Hn. destruct (Z.eq_dec n 0) as [->|Hnz]; [done|].
  pose proof (Zdigits2_le_53 n) as Hd.
  rewrite float_of_int_exact by lia. set (d := Zdigits2 n) in *.
  assert (0 < 2 ^ (53 - d)) by (apply Z.pow_pos_nonneg; lia).
  assert (hundredths (Z.to_pos (n * 2 ^ (53 - d))) (d - 53) = n * 100) as Hh.
  { unfold hundredths. destruct (d - 53) as [|p|p] eqn:Hp; try lia.
    - rewrite Z2Pos.id by nia. replace (53 - d) with 0 by lia. lia.
    - rewrite Z2Pos.id by nia. replace (53 - d) with (Zpos p) by lia.
      unfold round_half_even_div.
      replace (n * 2 ^ Zpos p * 100) with (n * 100 * 2 ^ Zpos p) by lia.
      rewrite Z.mod_mul, Z.div_mul by lia.
      destruct (Z.compare_spec (2 * 0) (2 ^ Zpos p)); lia. }
  cbn [format_2f]. rewrite Hh.
  rewrite Z.div_mul by lia.
  replace (n * 100 / 10) with (n * 10) by (apply (Z.div_unique _ _ _ 0); lia).
  replace (n * 100) with (n * 10 * 10) at 1 by lia.
  by rewrite !Z.mod_mul by lia.
Qed.

(** * The receipt *)

Section ReceiptFacts.
Context `{PySet}.

Lemma receipt_fold (items : list Drink) (k : Z) (acc : list string) :
  (fold_left
     (λ '(idx, receipt_lines) drink,
        ((idx + 1)%Z, receipt_lines ++ [receipt_line idx drink]))
     items (k, acc)).2
  = acc ++ imap (λ i d, receipt_line (k + Z.of_nat i) d) items.
Proof.
  revert k acc. induction items as [|d items IH]; intros k acc.
  - simpl. by rewrite app_nil_r.
  - cbn [fold_left]. rewrite IH, imap_cons, <-app_assoc. cbn [app].
    rewrite Z.add_0_r. do 2 f_equal. apply imap_ext. intros i x _.
    cbn. f_equal. lia.
Qed.

(** The lines of a receipt: header, one line per drink numbered from 1 in
    insertion order, count, cost. *)
Lemma receipt_lines_closed (o : Order) :
  receipt_lines o
  = ["--- Order Receipt ---"]
    ++ imap (λ i d, receipt_line (Z.of_nat i + 1) d) (_items o)
    ++ ["Total Drinks: " +:+ str_int (get_num_items o);
        "Total Cost: $" +:+ format_2f (get_total o)].
Proof.
  unfold receipt_lines, receipt_loop. rewrite receipt_fold.
  rewrite <-!app_assoc. cbn [app]. do 2 f_equal.
  apply imap_ext. intros i x _. cbn. f_equal. lia.
Qed.




End ReceiptFacts.

(** * The claims on the total and the receipt *)

Lemma get_total_exact (o : Order) :
  5 * get_num_items o < 2 ^ 53 →
  get_total o = float_of_int (5 * get_num_items o).
Proof.
  intros Hn. unfold get_total, get_num_items in *.
  apply float_mul_price_exact; lia.
Qed.


(** C4. [get_total] is exactly the item count times 5.00, computed from
    the items at each call, so that it follows an [add_item], and it prints
    with two decimals as that integer followed by [.00]: an empty order
    gives 0.00 and three drinks give 15.00. The product is a binary64
    float; it is exact while five times the count is below [2^53], which
    every order that fits in memory meets: the first count past the bound
    needs more than 14 petabytes for the list alone. *)
Theorem get_total_spec (o : Order) :
  5 * get_num_items o < 2 ^ 53 →
  int_of_float (get_total o) = Some (5 * get_num_items o)
  ∧ format_2f (get_total o) = str_int (5 * get_num_items o) +:+ ".00"
  ∧ (∀ d : Drink, 5 * (get_num_items o + 1) < 2 ^ 53 →
       int_of_float (get_total (state_after (add_item (PyDrink d) o)))
       = Some (5 * get_num_items o + 5))
  ∧ format_2f (get_total Order_init) = "0.00"
  ∧ (∀ d1 d2 d3 : Drink,
       int_of_float (get_total {| _items := [d1; d2; d3] |}) = Some 15
       ∧ format_2f (get_total {| _items := [d1; d2; d3] |}) = "15.00").
Proof.
  intros Hn. assert (0 <= get_num_items o) as H0 by (unfold get_num_items; lia).
  rewrite get_total_exact by done.
  split; [|split; [|split; [|split]]].
  - apply int_of_float_of_int. lia.
  - apply format_2f_float_of_int. lia.
  - intros d Hd.
    assert (get_num_items (state_after (add_item (PyDrink d) o))
            = get_num_items o + 1) as Hlen.
    { unfold get_num_items, add_item. run. rewrite length_app. simpl. lia. }
    rewrite get_total_exact by (rewrite Hlen; lia).
    rewrite Hlen, int_of_float_of_int by lia. f_equal. lia.
  - by vm_compute.
  - intros d1 d2 d3. split; by vm_compute.
Qed.

Lemma get_total_spec_witness :
  int_of_float (get_total {| _items := [Drink_init; Drink_init] |})
  = Some (5 * get_num_items {| _items := [Drink_init; Drink_init] |}).
Proof.
  assert (5 * get_num_items {| _items := [Drink_init; Drink_init] |} < 2 ^ 53)
    as Hn by (vm_compute; reflexivity).
  destruct (get_total_spec {| _items := [Drink_init; Drink_init] |} Hn)
    as (Hexact & _).
  exact Hexact.
Defined.

(** The bound of [get_total_spec] is the best one: at the first count past
    it the binary64 product is rounded. No list of that length can be
    built. *)
Lemma get_total_inexact :
  let o := {| _items := replicate (Z.to_nat 1801439850948199) Drink_init |} in
  get_num_items o = 1801439850948199
  ∧ int_of_float (get_total o) = Some 9007199254740996
  ∧ int_of_float (get_total o) ≠ Some (5 * get_num_items o).
Proof.
  intros o.
  assert (Z.of_nat (length (_items o)) = 1801439850948199) as Hlen.
  { unfold o. cbn [_items]. rewrite length_replicate. by apply Z2Nat.id. }
  assert (int_of_float (get_total o) = Some 9007199254740996) as Htot.
  { unfold get_total. rewrite Hlen. by vm_compute. }
  unfold get_num_items. rewrite Htot, Hlen.
  split; [reflexivity|]. split; [reflexivity|]. discriminate.
Qed.

Lemma get_total_two_decimals (o : Order) :
  _items o ≠ [] → get_num_items o <= PY_SSIZE_T_MAX →
  two_decimals (format_2f (get_total o)).
Proof.
  intros Hne Hmax. unfold get_total, get_num_items, PY_SSIZE_T_MAX in *.
  destruct (float_mul_price_finite (Z.of_nat (length (_items o))))
    as (m & e & ->).
  - destruct (_items o); [done|]. cbn [length] in *. lia.
  - apply format_2f_two_decimals.
Qed.









(** * Further properties of [Drink] *)

Lemma valid_flavors_NoDup : NoDup _valid_flavors.
Proof. apply (bool_decide_unpack _). by vm_compute. Qed.

(** X2. A reachable drink never holds more than six flavors. *)
Theorem reachable_at_most_six (d : Drink) :
  reachable d → (get_num_flavors d <= 6)%nat.
Proof.
  intros [cs ->].
  destruct (@run_calls_inv PySet_elements cs Drink_init
              (@Drink_inv_init PySet_elements)) as (_ & Hval & _).
  unfold get_num_flavors.
  transitivity (size (list_to_set _valid_flavors : gset string)).
  - apply subseteq_size. intros f Hf. apply elem_of_list_to_set. by apply Hval.
  - by rewrite size_list_to_set by apply valid_flavors_NoDup.
Qed.

Lemma reachable_at_most_six_witness :
  (get_num_flavors
     (run_calls [SetFlavors ["lemon"; "mint"]; AddFlavor "lime"] Drink_init)
   <= 6)%nat.
Proof.
  apply reachable_at_most_six.
  exists [SetFlavors ["lemon"; "mint"]; AddFlavor "lime"]. reflexivity.
Defined.

(** The loop of [set_flavors] ends normally exactly on valid, pairwise
    distinct flavors none of which the drink holds yet. *)
Lemma for_each_add_flavor_succeeds (vs : list string) (d : Drink) :
  outcome (for_each vs add_flavor d) = inr tt
  ↔ Forall (.∈ _valid_flavors) vs ∧ NoDup vs ∧ ∀ v, v ∈ vs → v ∉ _flavors d.
Proof.
  revert d. induction vs as [|v vs IH]; intros d.
  - split; [|done]. intros _. split; [done|]. split; [apply NoDup_nil_2|].
    by intros v ?%elem_of_nil.
  - rewrite Forall_cons, NoDup_cons. cbn [for_each]. run.
    destruct (decide (v ∈ _valid_flavors)) as [Hv|Hv].
    + destruct (decide (v ∈ _flavors d)) as [Hin|Hin].
      * rewrite add_flavor_duplicate by done. simpl. split; [done|].
        intros (_ & _ & Hfresh). destruct (Hfresh v); [by left|done].
      * rewrite add_flavor_ok by done. specialize (IH
          {| _base := _base d; _flavors := {[v]} ∪ _flavors d |}).
        run. rewrite IH. simpl. split.
        -- intros (Hval & Hnd & Hfresh). split; [done|]. split.
           ++ split; [|done]. intros Hvin. apply (Hfresh v Hvin).
              apply elem_of_union_l. by apply elem_of_singleton.
           ++ intros w [->|Hw]%elem_of_cons; [done|].
              intros Hwd. apply (Hfresh w Hw). by apply elem_of_union_r.
        -- intros ((_ & Hval) & (Hnv & Hnd) & Hfresh).
           split; [done|]. split; [done|].
           intros w Hw [->%elem_of_singleton|Hwd]%elem_of_union; [done|].
           apply (Hfresh w); [by right|done].
    + rewrite add_flavor_invalid by done. simpl. split; [done|].
      by intros ((? & _) & _).
Qed.

(** X3. [set_flavors] ends normally exactly when every flavor of the list
    is valid and no flavor occurs twice in it, whatever the drink held. *)
Theorem set_flavors_succeeds_iff (vs : list string) (d : Drink) :
  outcome (set_flavors vs d) = inr tt
  ↔ Forall (.∈ _valid_flavors) vs ∧ NoDup vs.
Proof.
  rewrite set_flavors_unfold, for_each_add_flavor_succeeds. simpl. split.
  - by intros (? & ? & _).
  - intros (? & ?). split; [done|]. split; [done|].
    by intros v _ ?%elem_of_empty.
Qed.

(** X4. After a [set_flavors] with valid, pairwise distinct flavors,
    [get_flavors] returns those flavors, up to order, and
    [get_num_flavors] their number. *)
Theorem set_flavors_get_flavors `{PySet} (vs : list string) (d : Drink) :
  Forall (.∈ _valid_flavors) vs → NoDup vs →
  get_flavors (state_after (set_flavors vs d)) ≡ₚ vs
  ∧ get_num_flavors (state_after (set_flavors vs d)) = length vs.
Proof.
  intros Hval Hnd. rewrite set_flavors_ok by done.
  unfold get_flavors, get_num_flavors, state_after. simpl. split.
  - rewrite set_list_perm. by apply elements_list_to_set.
  - by apply size_list_to_set.
Qed.

Lemma set_flavors_get_flavors_witness :
  @get_flavors PySet_elements
    (state_after (set_flavors ["mint"; "lime"] Drink_init))
  ≡ₚ ["mint"; "lime"].
Proof.
  assert (Forall (.∈ _valid_flavors) ["mint"; "lime"]) as Hval.
  { apply (bool_decide_unpack _). vm_compute. exact I. }
  assert (NoDup ["mint"; "lime"]) as Hnd.
  { apply (bool_decide_unpack _). vm_compute. exact I. }
  destruct (@set_flavors_get_flavors PySet_elements _ Drink_init Hval Hnd)
    as [Hperm _].
  exact Hperm.
Defined.

(** X5. What [set_flavors] does depends on the list and on the base only,
    never on the flavors the drink held: two drinks with the same base end
    in the same state with the same outcome, on failure too. So calling it
    twice in a row with the same list does what one call does. *)
Theorem set_flavors_forgets (vs : list string) (d1 d2 : Drink) :
  _base d1 = _base d2 →
  set_flavors vs d1 = set_flavors vs d2
  ∧ set_flavors vs (state_after (set_flavors vs d1)) = set_flavors vs d1.
Proof.
  intros Hb. rewrite !set_flavors_unfold, Hb. split; [done|].
  by rewrite for_each_add_flavor_base.
Qed.

Lemma set_flavors_forgets_witness :
  set_flavors ["lime"; "lime"] {| _base := None; _flavors := {["mint"]} |}
  = set_flavors ["lime"; "lime"] Drink_init.
Proof.
  assert (_base {| _base := None; _flavors := {["mint"]} |} = _base Drink_init)
    as Hb by reflexivity.
  destruct (set_flavors_forgets ["lime"; "lime"] _ _ Hb) as [Heq _].
  exact Heq.
Defined.

(** The drink left by [add_flavor]: a valid flavor is in the set afterwards,
    whether the call added it or refused it as a duplicate; an invalid one
    changes nothing. *)
Lemma add_flavor_state (v : string) (d : Drink) :
  state_after (add_flavor v d)
  = {| _base := _base d;
       _flavors := if bool_decide (v ∈ _valid_flavors)
                   then {[v]} ∪ _flavors d else _flavors d |}.
Proof.
  destruct (decide (v ∈ _valid_flavors)) as [Hv|Hv].
  - rewrite bool_decide_eq_true_2 by done.
    destruct (decide (v ∈ _flavors d)) as [Hin|Hin].
    + rewrite add_flavor_duplicate by done. unfold state_after. simpl.
      rewrite <-(drink_eta d) at 1. f_equal.
      apply set_eq. intros x. rewrite elem_of_union, elem_of_singleton.
      split; [by right|]. by intros [->|].
    + by rewrite add_flavor_ok.
  - rewrite bool_decide_eq_false_2 by done.
    rewrite add_flavor_invalid by done. unfold state_after. simpl.
    by rewrite drink_eta.
Qed.

(** X6. The order of two [add_flavor] calls does not matter for the drink
    they leave, whatever the two values are and whether the calls succeed
    or fail. *)
Theorem add_flavor_commutes (a b : string) (d : Drink) :
  state_after (add_flavor b (state_after (add_flavor a d)))
  = state_after (add_flavor a (state_after (add_flavor b d))).
Proof.
  rewrite !add_flavor_state. simpl. f_equal.
  destruct (bool_decide (a ∈ _valid_flavors)),
    (bool_decide (b ∈ _valid_flavors)); try done.
  apply set_eq. intros x. rewrite !elem_of_union. tauto.
Qed.

(** Every drink whose base is unset or valid and whose flavors are all valid
    is built from [Drink()] by an [add_base] and a [set_flavors]. *)
Lemma invariant_reachable (d : Drink) :
  (_base d = None ∨ ∃ b, _base d = Some b ∧ b ∈ _valid_bases) →
  (∀ f, f ∈ _flavors d → f ∈ _valid_flavors) →
  reachable d.
Proof.
  intros Hb Hf. destruct d as [base flavors]. simpl in *.
  assert (Forall (.∈ _valid_flavors) (elements flavors)) as Hval.
  { apply Forall_forall. intros f Hin. by apply Hf, elem_of_elements. }
  pose proof (NoDup_elements flavors) as Hnd.
  destruct Hb as [->|(b & -> & Hvb)].
  - exists [SetFlavors (elements flavors)]. unfold run_calls. simpl.
    rewrite set_flavors_ok by done. unfold state_after. simpl.
    by rewrite list_to_set_elements_L.
  - exists [AddBase b; SetFlavors (elements flavors)]. unfold run_calls. simpl.
    rewrite add_base_ok by done. unfold state_after at 2. simpl.
    rewrite set_flavors_ok by done. unfold state_after. simpl.
    by rewrite list_to_set_elements_L.
Qed.

(** X7. The invariant describes the reachable drinks exactly: a drink is
    reachable from [Drink()] if and only if its base is unset or one of the
    valid bases and all its flavors are valid. *)
Theorem reachable_iff_invariant (d : Drink) :
  reachable d
  ↔ (_base d = None ∨ ∃ b, _base d = Some b ∧ b ∈ _valid_bases)
    ∧ (∀ f, f ∈ _flavors d → f ∈ _valid_flavors).
Proof.
  split.
  - intros [cs ->].
    destruct (@run_calls_inv PySet_elements cs Drink_init
                (@Drink_inv_init PySet_elements)) as (Hb & Hval & _).
    by split.
  - intros [Hb Hf]. by apply invariant_reachable.
Qed.

Lemma reachable_iff_invariant_witness :
  reachable {| _base := Some "water"; _flavors := {["mint"]} |}.
Proof.
  apply reachable_iff_invariant. split.
  - right. exists "water". split; [reflexivity|].
    apply (bool_decide_unpack _). vm_compute. exact I.
  - cbn [_flavors]. intros f ->%elem_of_singleton.
    apply (bool_decide_unpack _). vm_compute. exact I.
Defined.


(** * Further properties of [Order] *)

(** X8. Adding a drink and then removing the item at the last index gives
    back the order as it was. *)
Theorem add_then_remove_last (o : Order) (d : Drink) :
  remove_item (get_num_items o) (state_after (add_item (PyDrink d) o))
  = (inr tt, o).
Proof.
  unfold add_item. run. rewrite remove_item_in_range.
  - simpl. unfold get_num_items. rewrite Nat2Z.id.
    rewrite (delete_middle (_items o) [] d), app_nil_r. by destruct o.
  - unfold get_num_items. simpl. rewrite length_app. simpl. lia.
Qed.



Lemma run_order_calls_snoc (cs : list order_call) (c : order_call) (o : Order) :
  run_order_calls (cs ++ [c]) o
  = state_after (run_order_call c (run_order_calls cs o)).
Proof. unfold run_order_calls. by rewrite fold_left_app. Qed.

(** X10. Over any sequence of [add_item] and [remove_item] calls on a new
    order, the items are drinks that were handed to [add_item], each at
    most as often as it was added and in the order of their insertion. *)
Theorem items_sublist_of_added (cs : list order_call) :
  _items (run_order_calls cs Order_init) `sublist_of` drinks_added cs.
Proof.
  induction cs as [|c cs IH] using rev_ind; [done|].
  rewrite run_order_calls_snoc. unfold drinks_added in *.
  rewrite omap_app. destruct c as [x|index]; simpl.
  - unfold add_item. run. destruct x as [| | |d]; simpl;
      rewrite ?app_nil_r; try done.
    by apply sublist_app.
  - rewrite app_nil_r. unfold remove_item. run.
    case_bool_decide; simpl; [done|].
    etransitivity; [apply sublist_delete|done].
Qed.



(** ** Line breaks in the receipt *)

Lemma no_newline_app (a b : string) :
  no_newline (a +:+ b) = no_newline a && no_newline b.
Proof. induction a as [|c a IH]; simpl; [done|]. by rewrite IH, andb_assoc. Qed.

Lemma count_newlines_app (a b : string) :
  count_newlines (a +:+ b) = (count_newlines a + count_newlines b)%nat.
Proof. induction a as [|c a IH]; simpl; [done|]. rewrite IH. lia. Qed.

Lemma no_newline_count (s : string) :
  no_newline s = true → count_newlines s = 0%nat.
Proof.
  induction s as [|c s IH]; simpl; [done|].
  intros [Hc Hs]%andb_prop. rewrite IH by done.
  by destruct (Ascii.eqb c (ascii_of_nat 10)).
Qed.

Lemma all_digits_no_newline (s : string) :
  all_digits s = true → no_newline s = true.
Proof.
  induction s as [|c s IH]; simpl; [done|].
  intros [Hc Hs]%andb_prop. rewrite IH by done.
  destruct (Ascii.eqb_spec c (ascii_of_nat 10)) as [->|]; [|done].
  by vm_compute in Hc.
Qed.

Lemma no_newline_join (sep : string) (l : list string) :
  no_newline sep = true → Forall (λ x, no_newline x = true) l →
  no_newline (join sep l) = true.
Proof.
  intros Hsep Hl. unfold join. induction Hl as [|x l Hx Hl IH]; [done|].
  cbn [String.concat]. destruct l as [|y l]; [done|].
  by rewrite !no_newline_app, Hx, Hsep, IH.
Qed.

(** Joining lines that hold no line break puts one between neighbours. *)
Lemma count_newlines_join (l : list string) :
  Forall (λ x, no_newline x = true) l → l ≠ [] →
  count_newlines (join newline l) = (length l - 1)%nat.
Proof.
  intros Hl Hne. unfold join. induction Hl as [|x l Hx Hl IH]; [done|].
  cbn [String.concat]. destruct l as [|y l].
  - simpl. by apply no_newline_count.
  - rewrite !count_newlines_app, (no_newline_count x Hx), IH by done.
    simpl. lia.
Qed.

Lemma valid_names_no_newline :
  Forall (λ x, no_newline x = true) _valid_bases
  ∧ Forall (λ x, no_newline x = true) _valid_flavors.
Proof. split; repeat (apply Forall_cons; split; [done|]); apply Forall_nil_2. Qed.

Lemma str_int_no_newline (z : Z) : 0 <= z → no_newline (str_int z) = true.
Proof. intros Hz. by apply all_digits_no_newline, str_int_digits. Qed.

Lemma two_decimals_no_newline (s : string) :
  two_decimals s → no_newline s = true.
Proof.
  intros (ip & d1 & d2 & -> & _ & Hip & Hd1 & Hd2).
  rewrite !no_newline_app, (all_digits_no_newline ip Hip). simpl.
  assert (all_digits (String d1 (String d2 "")) = true) as Hd
    by (simpl; by rewrite Hd1, Hd2).
  apply all_digits_no_newline in Hd. simpl in Hd. by rewrite Hd.
Qed.

Section ReceiptLines.
Context `{PySet}.

Lemma receipt_line_no_newline (idx : Z) (d : Drink) :
  0 <= idx → Drink_inv d → no_newline (receipt_line idx d) = true.
Proof.
  intros Hidx (Hb & Hval & _ & Hel). unfold receipt_line.
  destruct valid_names_no_newline as [Hbases Hflavors].
  rewrite !no_newline_app, str_int_no_newline by done.
  assert (no_newline (str_base (get_base d)) = true) as ->.
  { unfold get_base. destruct Hb as [->|(b & -> & Hvb)]; [done|].
    simpl. by apply (proj1 (Forall_forall _ _) Hbases). }
  assert (no_newline (join ", " (get_flavors d)) = true) as Hj.
  { apply no_newline_join; [done|]. apply Forall_forall. intros f Hf.
    apply (proj1 (Forall_forall _ _) Hflavors). by apply Hval, Hel. }
  assert (no_newline (str_or (join ", " (get_flavors d)) "None") = true) as ->.
  { by destruct (join ", " (get_flavors d)). }
  done.
Qed.

(** X12. For a non-empty order of reachable drinks that a CPython list can
    hold, no line of the receipt holds a line break, so the receipt text
    has exactly one line per drink plus three: header, count and cost. *)
Theorem receipt_line_count (o : Order) :
  _items o ≠ [] → Forall reachable (_items o) →
  get_num_items o <= PY_SSIZE_T_MAX →
  Forall (λ l, no_newline l = true) (receipt_lines o)
  ∧ length (receipt_lines o) = (length (_items o) + 3)%nat
  ∧ count_newlines (get_receipt o) = (length (_items o) + 2)%nat.
Proof.
  intros Hne Hreach Hmax.
  assert (length (receipt_lines o) = (length (_items o) + 3)%nat) as Hlen.
  { rewrite receipt_lines_closed, !length_app, length_imap. simpl. lia. }
  assert (Forall (λ l, no_newline l = true) (receipt_lines o)) as Hlines.
  { rewrite receipt_lines_closed. apply Forall_app. split.
    { by apply Forall_singleton. }
    apply Forall_app. split.
    - apply Forall_lookup. intros i l (d & Hd & ->)%list_lookup_imap_Some.
      apply receipt_line_no_newline; [lia|].
      pose proof (proj1 (Forall_lookup _ _) Hreach i d Hd) as [cs Hcs].
      rewrite Hcs.
      apply run_calls_inv, Drink_inv_init.
    - apply Forall_cons. split.
      + rewrite no_newline_app, str_int_no_newline; [done|].
        unfold get_num_items. lia.
      + apply Forall_singleton. rewrite no_newline_app. simpl.
        by apply two_decimals_no_newline, get_total_two_decimals. }
  split; [done|]. split; [done|].
  unfold get_receipt. rewrite bool_decide_eq_false_2 by done.
  rewrite count_newlines_join; [lia|done|].
  intros Hnil. rewrite Hnil in Hlen. simpl in Hlen. lia.
Qed.
End ReceiptLines.

Lemma receipt_line_count_witness :
  count_newlines (@get_receipt PySet_elements {| _items := [Drink_init] |})
  = (length (_items {| _items := [Drink_init] |}) + 2)%nat.
Proof.
  assert (_items {| _items := [Drink_init] |} ≠ []) as Hne by discriminate.
  assert (Forall reachable (_items {| _items := [Drink_init] |})) as Hreach.
  { apply Forall_singleton. by exists []. }
  assert (get_num_items {| _items := [Drink_init] |} <= PY_SSIZE_T_MAX) as Hmax.
  { vm_compute. discriminate. }
  destruct (@receipt_line_count PySet_elements _ Hne Hreach Hmax)
    as (_ & _ & Hcount).
  exact Hcount.
Defined.



(** X14. [add_base] and [add_flavor] do not interfere: in either order each
    call has the outcome it has on its own, and the drink left is the same. *)
Theorem add_base_add_flavor_commute (d : Drink) (b f : string) :
  outcome (add_base b (state_after (add_flavor f d))) = outcome (add_base b d)
  ∧ outcome (add_flavor f (state_after (add_base b d)))
    = outcome (add_flavor f d)
  ∧ state_after (add_base b (state_after (add_flavor f d)))
    = state_after (add_flavor f (state_after (add_base b d))).
Proof.
  unfold add_base, add_flavor. run.
  repeat case_bool_decide; simpl in *; repeat case_bool_decide; done.
Qed.
